(** * Pareto-front identification: [identify_pareto]

    A shallow embedding of the function [identify_pareto] of the notebook
    [jupyter_notebooks/0093_pareto.ipynb], with the part of NumPy and of the
    Python builtins it relies on ([shape], [arange], [ones], item access,
    element-wise [>=] and [>], [all], [any], assignment by index and
    selection by a boolean mask), followed by the properties of the
    function. *)

From Stdlib Require Import QArith Lqa.
From stdpp Require Import list sorting.

(** ** Numbers

    A component of a score vector is a floating-point number.  The function
    never computes with the components, it only compares them, and the
    comparison of two finite floating-point numbers is the comparison of
    the rationals they denote; so a component is a rational, one of the two
    infinities, or a NaN. *)

Inductive value : Type :=
| Finite (q : Q)
| PosInf
| NegInf
| NaN.

(** [x >= y] on two components: false as soon as one of them is a NaN. *)
Definition ge (x y : value) : bool :=
  match x, y with
  | NaN, _ | _, NaN => false
  | PosInf, _ => true
  | _, NegInf => true
  | Finite p, Finite q => Qle_bool q p
  | Finite _, PosInf => false
  | NegInf, _ => false
  end.

(** [x > y] on two components. *)
Definition gt (x y : value) : bool :=
  match x, y with
  | NaN, _ | _, NaN => false
  | _, PosInf => false
  | PosInf, _ => true
  | NegInf, _ => false
  | Finite p, Finite q => negb (Qle_bool p q)
  | Finite _, NegInf => true
  end.

Definition is_finite (x : value) : bool :=
  match x with Finite _ => true | _ => false end.

(** ** Exceptions *)

Inductive exn : Type :=
| TypeError
| ValueError
| IndexError
| AttributeError.

Inductive result (A : Type) : Type :=
| Ok (a : A)
| Raise (e : exn).

Arguments Ok {A} a.
Arguments Raise {A} e.

Definition bind {A B : Type} (m : result A) (k : A -> result B) : result B :=
  match m with
  | Ok a => k a
  | Raise e => Raise e
  end.

Notation "'let*' x ':=' m 'in' k" := (bind m (fun x => k))
  (at level 10, x name, m at level 100, k at level 200).

(** ** Arrays

    [scores] is an array whose first axis indexes the candidates.  Its
    items [scores[j]] are scalars (a one-dimensional array) or rows (a
    two-dimensional array, when all the rows have one length). *)

Inductive ndarray : Type :=
| Array1 (elems : list value)
| Array2 (rows : list (list value)).

Inductive item : Type :=
| Scalar (v : value)
| Vector (r : list value).

(** The result of an element-wise comparison of two items. *)
Inductive bools : Type :=
| BScalar (b : bool)
| BVector (bs : list bool).

(** [scores.shape[0]] *)
Definition shape0 (scores : ndarray) : nat :=
  match scores with
  | Array1 elems => length elems
  | Array2 rows => length rows
  end.

(** [scores[j]] for [j >= 0] *)
Definition getitem (scores : ndarray) (j : nat) : result item :=
  match scores with
  | Array1 elems =>
      match elems !! j with
      | Some v => Ok (Scalar v)
      | None => Raise IndexError
      end
  | Array2 rows =>
      match rows !! j with
      | Some r => Ok (Vector r)
      | None => Raise IndexError
      end
  end.

(** An element-wise operation on two rows: the rows have the same length,
    or one of them has length one and is repeated. *)
Definition broadcast (f : value -> value -> bool) (a b : list value)
  : result (list bool) :=
  if Nat.eqb (length a) (length b) then Ok (zip_with f a b)
  else match a, b with
       | [x], _ => Ok (map (f x) b)
       | _, [y] => Ok (map (fun x => f x y) a)
       | _, _ => Raise ValueError
       end.

(** [x >= y] and [x > y] on two items, according to [f]. *)
Definition compare (f : value -> value -> bool) (x y : item) : result bools :=
  match x, y with
  | Scalar u, Scalar v => Ok (BScalar (f u v))
  | Scalar u, Vector b => Ok (BVector (map (f u) b))
  | Vector a, Scalar v => Ok (BVector (map (fun x => f x v) a))
  | Vector a, Vector b => let* bs := broadcast f a b in Ok (BVector bs)
  end.

(** The builtins [all] and [any] iterate over their argument: a single
    boolean is not iterable. *)
Definition py_all (x : bools) : result bool :=
  match x with
  | BVector bs => Ok (forallb id bs)
  | BScalar _ => Raise TypeError
  end.

Definition py_any (x : bools) : result bool :=
  match x with
  | BVector bs => Ok (existsb id bs)
  | BScalar _ => Raise TypeError
  end.

(** [np.arange(n)] and [np.ones(n, dtype=bool)] *)
Definition arange (n : nat) : list nat := seq 0 n.
Definition ones (n : nat) : list bool := replicate n true.

(** [ids[mask]], the selection by a boolean mask of the same length. *)
Fixpoint mask_select {A : Type} (ids : list A) (mask : list bool) : list A :=
  match ids, mask with
  | x :: ids', b :: mask' =>
      if b then x :: mask_select ids' mask' else mask_select ids' mask'
  | _, _ => []
  end.

(** [scores[ids]], the rows at the given indices (used by the notebook to
    print the scores of the front). *)
Definition take_rows (rows : list (list value)) (ids : list nat)
  : list (list value) :=
  omap (fun i => rows !! i) ids.

(** ** The function *)

(** The condition
    [all(scores[j] >= scores[i]) and any(scores[j] > scores[i])]. *)
Definition dominated_test (scores : ndarray) (i j : nat) : result bool :=
  let* sj := getitem scores j in
  let* si := getitem scores i in
  let* c := compare ge sj si in
  let* a := py_all c in
  if a then
    let* sj' := getitem scores j in
    let* si' := getitem scores i in
    let* c' := compare gt sj' si' in
    py_any c'
  else Ok false.

(** The inner loop [for j in range(population_size)] for one [i]: at the
    first [j] that dominates [i], [pareto_front[i] = 0] and [break].  The
    index [i] is in range, so the assignment is an update in place. *)
Fixpoint inner_loop (scores : ndarray) (i : nat) (js : list nat)
    (pareto_front : list bool) : result (list bool) :=
  match js with
  | [] => Ok pareto_front
  | j :: js' =>
      let* d := dominated_test scores i j in
      if d then Ok (<[i := false]> pareto_front)
      else inner_loop scores i js' pareto_front
  end.

(** The outer loop [for i in range(population_size)]. *)
Fixpoint outer_loop (scores : ndarray) (cands js : list nat)
    (pareto_front : list bool) : result (list bool) :=
  match cands with
  | [] => Ok pareto_front
  | i :: cands' =>
      let* pareto_front' := inner_loop scores i js pareto_front in
      outer_loop scores cands' js pareto_front'
  end.

Definition identify_pareto (scores : ndarray) : result (list nat) :=
  let population_size := shape0 scores in
  let population_ids := arange population_size in
  let pareto_front := ones population_size in
  let* pareto_front' :=
    outer_loop scores (seq 0 population_size) (seq 0 population_size)
      pareto_front in
  Ok (mask_select population_ids pareto_front').

(** ** The variant without early exit

    The variant the specification compares the function with: for each
    [i] all the [j] are tested and the outcomes are combined by a
    disjunction. *)
Fixpoint scan_all (scores : ndarray) (i : nat) (js : list nat) : result bool :=
  match js with
  | [] => Ok false
  | j :: js' =>
      let* d := dominated_test scores i j in
      let* rest := scan_all scores i js' in
      Ok (d || rest)
  end.

Fixpoint outer_loop_naive (scores : ndarray) (cands js : list nat)
    (pareto_front : list bool) : result (list bool) :=
  match cands with
  | [] => Ok pareto_front
  | i :: cands' =>
      let* d := scan_all scores i js in
      outer_loop_naive scores cands' js
        (if d then <[i := false]> pareto_front else pareto_front)
  end.

Definition identify_pareto_naive (scores : ndarray) : result (list nat) :=
  let population_size := shape0 scores in
  let* pareto_front' :=
    outer_loop_naive scores (seq 0 population_size) (seq 0 population_size)
      (ones population_size) in
  Ok (mask_select (arange population_size) pareto_front').

(** ** Data of the notebook *)

(** [np.array] of a nested list of integers. *)
Definition int_array (rows : list (list Z)) : list (list value) :=
  map (map (fun z => Finite (inject_Z z))) rows.

Definition scores : list (list value) :=
  int_array
    [[97; 23]; [55; 77]; [34; 76]; [80; 60]; [99; 4]; [81; 5]; [5; 81];
     [30; 79]; [15; 80]; [70; 65]; [90; 40]; [40; 30]; [30; 40]; [20; 60];
     [60; 50]; [20; 20]; [30; 1]; [60; 40]; [70; 25]; [44; 62]; [55; 55];
     [55; 10]; [15; 45]; [83; 22]; [76; 46]; [56; 32]; [45; 55]; [10; 70];
     [10; 30]; [79; 50]]%Z.

(** ** The dominance test on rows *)

(** The value of the condition of the inner loop when [a] is [scores[j]],
    [b] is [scores[i]] and the two rows have one length. *)
Definition dominates (a b : list value) : bool :=
  forallb id (zip_with ge a b) && existsb id (zip_with gt a b).

(** Some row of [rows] dominates [r]. *)
Definition dominated (rows : list (list value)) (r : list value) : bool :=
  existsb (fun r' => dominates r' r) rows.

(** Candidate [i] is in range and no row of [rows] dominates its row. *)
Definition retained (rows : list (list value)) (i : nat) : bool :=
  match rows !! i with
  | Some r => negb (dominated rows r)
  | None => false
  end.

(** The indices of the candidates that no candidate dominates. *)
Definition pareto_ids (rows : list (list value)) : list nat :=
  filter (fun i => retained rows i) (seq 0 (length rows)).

(** ** Inputs *)

(** All the rows have length [M]: the array has shape [(N, M)]. *)
Definition rectangular (M : nat) (rows : list (list value)) : Prop :=
  Forall (fun r => length r = M) rows.

Definition all_finite (rows : list (list value)) : Prop :=
  Forall (Forall (fun v => is_finite v = true)) rows.

(** The valid inputs of the specification: [N] rows of one length
    [M >= 1], all the components finite. *)
Definition valid (M : nat) (rows : list (list value)) : Prop :=
  1 <= M /\ rectangular M rows /\ all_finite rows.

(** Dominance as the specification defines it, on score vectors of
    rationals: [a] is at least [b] at every objective and more than [b] at
    one of them. *)
Definition Dominates (a b : list value) : Prop :=
  (forall k p q, a !! k = Some (Finite p) -> b !! k = Some (Finite q) ->
                 (q <= p)%Q) /\
  (exists k p q, a !! k = Some (Finite p) /\ b !! k = Some (Finite q) /\
                 (q < p)%Q).

(** The value of objective [c] in a finite score vector. *)
Definition coord (c : nat) (r : list value) : Q :=
  match r !! c with
  | Some (Finite q) => q
  | _ => 0%Q
  end.

(** The sum of the finite components of a score vector. *)
Definition total (r : list value) : Q :=
  foldr (fun v acc => match v with Finite q => (q + acc)%Q | _ => acc end)
        0%Q r.

(** Candidate [k] has the largest value of objective [c] in the
    population. *)
Definition achieves_max (rows : list (list value)) (c k : nat) : Prop :=
  exists rk, rows !! k = Some rk /\
    forall j rj, rows !! j = Some rj -> (coord c rj <= coord c rk)%Q.

(** ** Arguments that are not arrays

    A caller can give the function a nested list in place of an array.
    The first statement of the function reads [scores.shape], and a list
    has no attribute [shape]. *)



(** ** The notebook around the function *)

(** [l[ids]] for an array of indices [ids]: the items at the indices, in
    the order of [ids]; an index out of range raises. *)
Fixpoint take_items {A : Type} (l : list A) (ids : list nat)
  : result (list A) :=
  match ids with
  | [] => Ok []
  | i :: ids' =>
      match l !! i with
      | Some x => let* rest := take_items l ids' in Ok (x :: rest)
      | None => Raise IndexError
      end
  end.

(** [scores[ids]] *)
Definition fancy_index (scores : ndarray) (ids : list nat) : result ndarray :=
  match scores with
  | Array1 elems => let* xs := take_items elems ids in Ok (Array1 xs)
  | Array2 rows => let* rs := take_items rows ids in Ok (Array2 rs)
  end.

(** [pareto = identify_pareto(scores)] followed by
    [pareto_front = scores[pareto]]. *)
Definition pareto_front_scores (scores : ndarray) : result ndarray :=
  let* pareto := identify_pareto scores in
  fancy_index scores pareto.

(** [pd.DataFrame(front).sort_values(c).values] on finite scores: the rows
    of [front] in ascending order of column [c].  The sort is not a stable
    one, so the order of the rows that have one value in column [c] is not
    fixed: [sorted] is any arrangement of the rows in ascending order. *)
Definition sorted_by (c : nat) (front sorted : list (list value)) : Prop :=
  sorted ≡ₚ front /\
  forall p q a b, p < q -> sorted !! p = Some a -> sorted !! q = Some b ->
                  (coord c a <= coord c b)%Q.

(** The population after objective [c] has been replaced by its image by
    [f c], for every [c]; a component that is not finite is left as it
    is. *)
Definition rescale (f : nat -> Q -> Q) (r : list value) : list value :=
  imap (fun c v => match v with Finite q => Finite (f c q) | _ => v end) r.

(** A tactic for the validity of a concrete array. *)
Ltac valid_array :=
  split; [lia | split; repeat (constructor; try reflexivity)].

(** A tactic for the facts on the order of three components. *)
Ltac value_order :=
  repeat match goal with
         | x : value |- _ => destruct x
         end;
  simpl; try done;
  repeat match goal with
         | |- context [Qle_bool ?p ?q] =>
             let H := fresh "H" in
             destruct (Qle_bool p q) eqn:H;
             [apply Qle_bool_iff in H
             |apply not_true_iff_false in H; rewrite Qle_bool_iff in H]
         end;
  simpl; try done; intros; try discriminate; exfalso; lra.

(** * Properties *)

(** ** The function on a two-dimensional array *)

Lemma broadcast_same_length f a b :
  length a = length b -> broadcast f a b = Ok (zip_with f a b).
Proof.
  intros Hlen. unfold broadcast.
  by rewrite Hlen, Nat.eqb_refl.
Qed.

Lemma dominated_test_rows rows i j ri rj :
  rows !! i = Some ri -> rows !! j = Some rj -> length rj = length ri ->
  dominated_test (Array2 rows) i j = Ok (dominates rj ri).
Proof.
  intros Hi Hj Hlen. unfold dominated_test, dominates. simpl.
  rewrite Hi, Hj. simpl.
  rewrite !broadcast_same_length by done. simpl.
  by destruct (forallb id (zip_with ge rj ri)).
Qed.

Lemma rectangular_lookup M rows i r :
  rectangular M rows -> rows !! i = Some r -> length r = M.
Proof.
  intros Hrect Hi. unfold rectangular in Hrect.
  rewrite Forall_lookup in Hrect. eauto.
Qed.

Lemma take_rows_cons rows j js rj :
  rows !! j = Some rj -> take_rows rows (j :: js) = rj :: take_rows rows js.
Proof. intros Hj. unfold take_rows. simpl. by rewrite Hj. Qed.

Lemma take_rows_seq_from rows s :
  take_rows rows (seq s (length rows - s)) = drop s rows.
Proof.
  remember (length rows - s) as n eqn:Hn.
  revert s Hn. induction n as [|n IH]; intros s Hn.
  - simpl. rewrite drop_ge by lia. done.
  - destruct (lookup_lt_is_Some_2 rows s) as [r Hr]; [lia|].
    simpl seq. rewrite (take_rows_cons _ _ _ r) by done.
    rewrite IH by lia.
    by rewrite (drop_S _ _ _ Hr).
Qed.

Lemma take_rows_all rows : take_rows rows (seq 0 (length rows)) = rows.
Proof.
  pose proof (take_rows_seq_from rows 0) as H.
  by rewrite Nat.sub_0_r in H.
Qed.

(** The assignment [pareto_front[s] = 0], or its absence, seen on the marks
    before [s], the mark of [s] and the marks after [s]. *)
Lemma mark_candidate (d : bool) s (marks rest : list bool) :
  length marks = s ->
  (if d then <[s := false]> (marks ++ true :: rest)
   else marks ++ true :: rest) =
  (marks ++ [negb d]) ++ rest.
Proof.
  intros Hlen. rewrite <- app_assoc. simpl.
  destruct d; [|done]. simpl.
  rewrite insert_app_r_alt by lia.
  by rewrite Hlen, Nat.sub_diag.
Qed.

Section loops.
Variable M : nat.
Variable rows : list (list value).
Hypothesis Hrect : rectangular M rows.

Lemma inner_loop_rows i ri js pf :
  rows !! i = Some ri ->
  Forall (fun j => j < length rows) js ->
  inner_loop (Array2 rows) i js pf =
    Ok (if dominated (take_rows rows js) ri then <[i := false]> pf else pf).
Proof.
  intros Hi Hjs. induction Hjs as [|j js Hj Hjs IH]; [done|].
  destruct (lookup_lt_is_Some_2 rows j Hj) as [rj Hrj].
  rewrite (take_rows_cons _ _ _ rj) by done. simpl.
  rewrite (dominated_test_rows rows i j ri rj); try done.
  - simpl. destruct (dominates rj ri); [done|]. apply IH.
  - rewrite (rectangular_lookup M rows j rj), (rectangular_lookup M rows i ri);
      done.
Qed.

Lemma scan_all_rows i ri js :
  rows !! i = Some ri ->
  Forall (fun j => j < length rows) js ->
  scan_all (Array2 rows) i js = Ok (dominated (take_rows rows js) ri).
Proof.
  intros Hi Hjs. induction Hjs as [|j js Hj Hjs IH]; [done|].
  destruct (lookup_lt_is_Some_2 rows j Hj) as [rj Hrj].
  rewrite (take_rows_cons _ _ _ rj) by done. simpl.
  rewrite (dominated_test_rows rows i j ri rj); try done.
  - simpl. by rewrite IH.
  - rewrite (rectangular_lookup M rows j rj), (rectangular_lookup M rows i ri);
      done.
Qed.

(** The marks of the candidates [s], ..., [s + n - 1] once the outer loop
    has gone through them, [marks] being the marks before [s]. *)
Lemma outer_loop_rows n s marks :
  length marks = s -> s + n <= length rows ->
  outer_loop (Array2 rows) (seq s n) (seq 0 (length rows))
    (marks ++ replicate n true) =
    Ok (marks ++ map (retained rows) (seq s n)).
Proof.
  revert s marks. induction n as [|n IH]; intros s marks Hlen Hle; [done|].
  destruct (lookup_lt_is_Some_2 rows s) as [ri Hri]; [lia|].
  cbn [seq outer_loop replicate map].
  rewrite (inner_loop_rows s ri) by (done || apply Forall_seq; lia).
  rewrite take_rows_all. cbn [bind].
  rewrite (mark_candidate _ _ _ _ Hlen).
  replace (negb (dominated rows ri)) with (retained rows s)
    by (unfold retained; by rewrite Hri).
  rewrite IH by (rewrite ?length_app; simpl; lia).
  by rewrite <- app_assoc.
Qed.

Lemma outer_loop_naive_rows n s marks :
  length marks = s -> s + n <= length rows ->
  outer_loop_naive (Array2 rows) (seq s n) (seq 0 (length rows))
    (marks ++ replicate n true) =
    Ok (marks ++ map (retained rows) (seq s n)).
Proof.
  revert s marks. induction n as [|n IH]; intros s marks Hlen Hle; [done|].
  destruct (lookup_lt_is_Some_2 rows s) as [ri Hri]; [lia|].
  cbn [seq outer_loop_naive replicate map].
  rewrite (scan_all_rows s ri) by (done || apply Forall_seq; lia).
  rewrite take_rows_all. cbn [bind].
  rewrite (mark_candidate _ _ _ _ Hlen).
  replace (negb (dominated rows ri)) with (retained rows s)
    by (unfold retained; by rewrite Hri).
  rewrite IH by (rewrite ?length_app; simpl; lia).
  by rewrite <- app_assoc.
Qed.
End loops.

Lemma mask_select_map {A} (f : A -> bool) (l : list A) :
  mask_select l (map f l) = filter (fun x => f x) l.
Proof.
  induction l as [|x l IH]; [done|].
  simpl. rewrite filter_cons, IH.
  by destruct (f x).
Qed.

(** On an array of shape [(N, M)] the function returns, without raising,
    the indices of the candidates that no candidate dominates. *)
Lemma identify_pareto_rows M rows :
  rectangular M rows -> identify_pareto (Array2 rows) = Ok (pareto_ids rows).
Proof.
  intros Hrect. unfold identify_pareto, ones, arange. simpl shape0.
  pose proof (outer_loop_rows M rows Hrect (length rows) 0 [] eq_refl) as H.
  rewrite !app_nil_l in H. rewrite H by (simpl; lia).
  simpl. by rewrite mask_select_map.
Qed.

Lemma identify_pareto_naive_rows M rows :
  rectangular M rows ->
  identify_pareto_naive (Array2 rows) = Ok (pareto_ids rows).
Proof.
  intros Hrect. unfold identify_pareto_naive, ones, arange. simpl shape0.
  pose proof (outer_loop_naive_rows M rows Hrect (length rows) 0 [] eq_refl)
    as H.
  rewrite !app_nil_l in H. rewrite H by (simpl; lia).
  simpl. by rewrite mask_select_map.
Qed.

(** ** The test and the dominance relation *)

Lemma all_ge_lookup a b :
  forallb id (zip_with ge a b) = true <->
  (forall k x y, a !! k = Some x -> b !! k = Some y -> ge x y = true).
Proof.
  revert b. induction a as [|x a IH]; intros [|y b]; simpl.
  - split; [|done]. intros _ k ? ? H. by rewrite lookup_nil in H.
  - split; [|done]. intros _ k ? ? H. by rewrite lookup_nil in H.
  - split; [|done]. intros _ k ? ? _ H. by rewrite lookup_nil in H.
  - unfold id at 1. rewrite andb_true_iff, IH. split.
    + intros [Hxy Hall] [|k] x' y' Hx Hy; simpl in *.
      * congruence.
      * eauto.
    + intros Hall. split.
      * by apply (Hall 0).
      * intros k x' y'. apply (Hall (S k)).
Qed.

Lemma any_gt_lookup a b :
  existsb id (zip_with gt a b) = true <->
  (exists k x y, a !! k = Some x /\ b !! k = Some y /\ gt x y = true).
Proof.
  revert b. induction a as [|x a IH]; intros [|y b]; simpl.
  - split; [done|]. intros (k & ? & ? & H & _). by rewrite lookup_nil in H.
  - split; [done|]. intros (k & ? & ? & H & _). by rewrite lookup_nil in H.
  - split; [done|]. intros (k & ? & ? & _ & H & _). by rewrite lookup_nil in H.
  - unfold id at 1. rewrite orb_true_iff, IH. split.
    + intros [Hxy | (k & x' & y' & Hx & Hy & Hgt)].
      * by exists 0, x, y.
      * by exists (S k), x', y'.
    + intros ([|k] & x' & y' & Hx & Hy & Hgt); simpl in *.
      * left. congruence.
      * right. by exists k, x', y'.
Qed.

Lemma dominates_lookup a b :
  dominates a b = true <->
  (forall k x y, a !! k = Some x -> b !! k = Some y -> ge x y = true) /\
  (exists k x y, a !! k = Some x /\ b !! k = Some y /\ gt x y = true).
Proof.
  unfold dominates. by rewrite andb_true_iff, all_ge_lookup, any_gt_lookup.
Qed.

Lemma ge_Finite p q : ge (Finite p) (Finite q) = true <-> (q <= p)%Q.
Proof. simpl. apply Qle_bool_iff. Qed.

Lemma gt_Finite p q : gt (Finite p) (Finite q) = true <-> (q < p)%Q.
Proof.
  simpl. rewrite negb_true_iff, <- not_true_iff_false, Qle_bool_iff.
  split; [apply Qnot_le_lt | apply Qlt_not_le].
Qed.

Lemma finite_lookup (a : list value) k x :
  Forall (fun v => is_finite v = true) a -> a !! k = Some x ->
  exists p, x = Finite p.
Proof.
  intros Ha Hk. rewrite Forall_lookup in Ha.
  specialize (Ha k x Hk). destruct x; try done. by eexists.
Qed.

(** On finite score vectors the test of the inner loop decides the
    dominance relation of the specification. *)
Lemma dominates_Dominates a b :
  Forall (fun v => is_finite v = true) a ->
  Forall (fun v => is_finite v = true) b ->
  dominates a b = true <-> Dominates a b.
Proof.
  intros Ha Hb. rewrite dominates_lookup. unfold Dominates. split.
  - intros [Hall (k & x & y & Hx & Hy & Hgt)]. split.
    + intros k' p q Hp Hq. apply ge_Finite. eauto.
    + destruct (finite_lookup a k x Ha Hx) as [p ->].
      destruct (finite_lookup b k y Hb Hy) as [q ->].
      exists k, p, q. by rewrite <- gt_Finite.
  - intros [Hall (k & p & q & Hp & Hq & Hlt)]. split.
    + intros k' x y Hx Hy.
      destruct (finite_lookup a k' x Ha Hx) as [p' ->].
      destruct (finite_lookup b k' y Hb Hy) as [q' ->].
      apply ge_Finite. eauto.
    + exists k, (Finite p), (Finite q). by rewrite gt_Finite.
Qed.

(** ** The returned indices *)

Lemma elem_of_pareto_ids rows i :
  i ∈ pareto_ids rows <->
  exists ri, rows !! i = Some ri /\ dominated rows ri = false.
Proof.
  unfold pareto_ids. rewrite list_elem_of_filter, elem_of_seq.
  unfold retained. split.
  - intros [Hret _]. destruct (rows !! i) as [ri|]; [|done].
    exists ri. split; [done|]. by destruct (dominated rows ri).
  - intros (ri & Hri & Hdom). rewrite Hri, Hdom. split; [done|].
    apply lookup_lt_Some in Hri. lia.
Qed.

Lemma dominated_true rows r :
  dominated rows r = true <->
  exists j rj, rows !! j = Some rj /\ dominates rj r = true.
Proof.
  unfold dominated. rewrite existsb_exists. split.
  - intros (rj & Hin & Hdom). apply list_elem_of_In in Hin.
    apply list_elem_of_lookup in Hin as [j Hj]. eauto.
  - intros (j & rj & Hj & Hdom). exists rj. split; [|done].
    apply list_elem_of_In. by eapply list_elem_of_lookup_2.
Qed.

Lemma dominated_false rows r :
  dominated rows r = false <->
  forall j rj, rows !! j = Some rj -> dominates rj r = false.
Proof.
  rewrite <- not_true_iff_false, dominated_true. split.
  - intros Hno j rj Hj. apply not_true_iff_false. intros Hdom. eauto.
  - intros Hall (j & rj & Hj & Hdom). rewrite (Hall j rj Hj) in Hdom. done.
Qed.

Lemma pareto_ids_sorted rows : StronglySorted lt (pareto_ids rows).
Proof.
  unfold pareto_ids. generalize (retained rows) as f.
  generalize 0 as s, (length rows) as n. intros s n. revert s.
  induction n as [|n IH]; intros s f; [constructor|].
  simpl seq. rewrite filter_cons. case_decide; [|apply IH].
  constructor; [apply IH|].
  apply Forall_forall. intros k Hk.
  apply list_elem_of_filter in Hk as [_ Hk]. apply elem_of_seq in Hk. lia.
Qed.

Lemma pareto_ids_NoDup rows : NoDup (pareto_ids rows).
Proof. apply NoDup_filter, NoDup_seq. Qed.

Lemma pareto_ids_sublist rows :
  pareto_ids rows `sublist_of` seq 0 (length rows).
Proof. apply sublist_filter. Qed.

Lemma valid_rectangular M rows : valid M rows -> rectangular M rows.
Proof. by intros (_ & Hrect & _). Qed.

Lemma valid_finite M rows i r :
  valid M rows -> rows !! i = Some r ->
  Forall (fun v => is_finite v = true) r.
Proof.
  intros (_ & _ & Hfin) Hi. unfold all_finite in Hfin.
  rewrite Forall_lookup in Hfin. eauto.
Qed.

(** ** Correctness of the returned indices *)

(** C1: on every valid input the function returns, in strictly ascending
    order and without a duplicate, a subsequence of [0..N-1]; every
    returned index is dominated by no candidate of the population, and
    every index that is not returned is dominated by some candidate. *)
Theorem identify_pareto_correct M rows :
  valid M rows ->
  exists ids,
    identify_pareto (Array2 rows) = Ok ids /\
    StronglySorted lt ids /\
    NoDup ids /\
    ids `sublist_of` seq 0 (length rows) /\
    (forall i, i ∈ ids ->
       exists ri, rows !! i = Some ri /\
         forall j rj, rows !! j = Some rj -> ~ Dominates rj ri) /\
    (forall k rk, rows !! k = Some rk -> k ∉ ids ->
       exists j rj, rows !! j = Some rj /\ Dominates rj rk).
Proof.
  intros Hvalid. exists (pareto_ids rows).
  split; [by eapply identify_pareto_rows, valid_rectangular|].
  split; [apply pareto_ids_sorted|].
  split; [apply pareto_ids_NoDup|].
  split; [apply pareto_ids_sublist|].
  split.
  - intros i Hi. apply elem_of_pareto_ids in Hi as (ri & Hri & Hdom).
    exists ri. split; [done|]. intros j rj Hrj HD.
    rewrite dominated_false in Hdom. specialize (Hdom j rj Hrj).
    apply dominates_Dominates in HD; [congruence| |];
      by eapply valid_finite.
  - intros k rk Hrk Hnot. rewrite elem_of_pareto_ids in Hnot.
    destruct (dominated rows rk) eqn:Hdom; [|destruct Hnot; eauto].
    apply dominated_true in Hdom as (j & rj & Hrj & Hdom).
    exists j, rj. split; [done|].
    apply dominates_Dominates; [| |done]; by eapply valid_finite.
Qed.

Lemma identify_pareto_correct_witness :
  let rows := int_array [[1; 1]; [1; 2]]%Z in
  valid 2 rows /\
  exists ids,
    identify_pareto (Array2 rows) = Ok ids /\
    StronglySorted lt ids /\
    NoDup ids /\
    ids `sublist_of` seq 0 (length rows) /\
    (forall i, i ∈ ids ->
       exists ri, rows !! i = Some ri /\
         forall j rj, rows !! j = Some rj -> ~ Dominates rj ri) /\
    (forall k rk, rows !! k = Some rk -> k ∉ ids ->
       exists j rj, rows !! j = Some rj /\ Dominates rj rk).
Proof.
  intros rows.
  assert (Hvalid : valid 2 rows) by valid_array.
  split; [exact Hvalid | exact (identify_pareto_correct 2 rows Hvalid)].
Defined.

(** ** The data of the notebook *)

(** C6: on the thirty candidates of the notebook the function returns the
    indices 0, 1, 3, 4, 6, 7, 8, 9 and 10. *)
Theorem identify_pareto_scores :
  identify_pareto (Array2 scores) = Ok [0; 1; 3; 4; 6; 7; 8; 9; 10].
Proof. vm_compute. reflexivity. Qed.

(** ** The empty population *)

(** C9: when there is no candidate the function returns the empty
    sequence of indices and raises nothing. *)
Theorem identify_pareto_empty scores :
  shape0 scores = 0 -> identify_pareto scores = Ok [].
Proof.
  intros Hshape. unfold identify_pareto. rewrite Hshape. reflexivity.
Qed.

Lemma identify_pareto_empty_witness :
  shape0 (Array2 []) = 0 /\ identify_pareto (Array2 []) = Ok [].
Proof.
  split; [reflexivity | apply (identify_pareto_empty (Array2 [])); reflexivity].
Defined.

(** ** Identical score vectors *)

Lemma gt_irrefl x : gt x x = false.
Proof.
  destruct x as [p| | |]; try done.
  simpl. apply negb_false_iff, Qle_bool_iff, Qle_refl.
Qed.

Lemma dominates_irrefl a : dominates a a = false.
Proof.
  apply not_true_iff_false. rewrite dominates_lookup.
  intros [_ (k & x & y & Hx & Hy & Hgt)].
  assert (x = y) as -> by congruence.
  by rewrite gt_irrefl in Hgt.
Qed.

Lemma filter_all {A} (P : A -> Prop) `{!forall x, Decision (P x)} (l : list A) :
  Forall P l -> filter P l = l.
Proof.
  induction 1 as [|x l Hx Hl IH]; [done|].
  by rewrite filter_cons_True, IH.
Qed.

Lemma pareto_ids_replicate n r : pareto_ids (replicate n r) = seq 0 n.
Proof.
  unfold pareto_ids. rewrite length_replicate.
  apply filter_all, Forall_forall. intros i Hi.
  apply elem_of_seq in Hi. unfold retained.
  rewrite lookup_replicate_2 by lia.
  replace (dominated (replicate n r) r) with false; [done|].
  symmetry. apply dominated_false. intros j rj Hj.
  apply lookup_replicate in Hj as [-> _]. apply dominates_irrefl.
Qed.

(** C5: a score vector never dominates a vector identical to it; so two
    candidates with one score vector that no candidate dominates are both
    returned, [[1,1],[1,1]] gives [0,1], and a population of identical
    candidates gives all the indices. *)
Theorem identical_scores_retained :
  (forall a, dominates a a = false) /\
  (forall M rows i k r,
     rectangular M rows ->
     rows !! i = Some r -> rows !! k = Some r ->
     (forall j rj, rows !! j = Some rj -> dominates rj r = false) ->
     exists ids, identify_pareto (Array2 rows) = Ok ids /\ i ∈ ids /\ k ∈ ids) /\
  identify_pareto (Array2 (int_array [[1; 1]; [1; 1]]%Z)) = Ok [0; 1] /\
  (forall n r, identify_pareto (Array2 (replicate n r)) = Ok (seq 0 n)).
Proof.
  split; [apply dominates_irrefl|].
  split; [|split; [reflexivity|]].
  - intros M rows i k r Hrect Hi Hk Hnone.
    exists (pareto_ids rows).
    split; [by eapply identify_pareto_rows|].
    apply dominated_false in Hnone.
    split; apply elem_of_pareto_ids; eauto.
  - intros n r. rewrite <- (pareto_ids_replicate n r).
    apply (identify_pareto_rows (length r)), Forall_replicate. done.
Qed.

Lemma identical_scores_retained_witness :
  exists ids,
    identify_pareto (Array2 (int_array [[1; 1]; [0; 1]; [1; 1]]%Z)) = Ok ids /\
    0 ∈ ids /\ 2 ∈ ids.
Proof.
  destruct identical_scores_retained as (_ & Hboth & _).
  apply (Hboth 2 (int_array [[1; 1]; [0; 1]; [1; 1]]%Z) 0 2
               (map (fun z => Finite (inject_Z z)) [1; 1]%Z)).
  - repeat constructor.
  - reflexivity.
  - reflexivity.
  - intros [|[|[|j]]] rj Hj; simpl in Hj; try discriminate;
      injection Hj as <-; reflexivity.
Defined.

(** ** Components that are not numbers *)

Lemma ge_nan_r x : ge x NaN = false.
Proof. by destruct x. Qed.

Lemma ge_nan_l y : ge NaN y = false.
Proof. by destruct y. Qed.

Lemma dominates_nan_r a b :
  length a = length b -> NaN ∈ b -> dominates a b = false.
Proof.
  intros Hlen Hnan. apply not_true_iff_false.
  rewrite dominates_lookup. intros [Hall _].
  apply list_elem_of_lookup in Hnan as [k Hk].
  destruct (lookup_lt_is_Some_2 a k) as [x Hx].
  { rewrite Hlen. by eapply lookup_lt_Some. }
  specialize (Hall k x NaN Hx Hk). by rewrite ge_nan_r in Hall.
Qed.

Lemma dominates_nan_l a b :
  length a = length b -> NaN ∈ a -> dominates a b = false.
Proof.
  intros Hlen Hnan. apply not_true_iff_false.
  rewrite dominates_lookup. intros [Hall _].
  apply list_elem_of_lookup in Hnan as [k Hk].
  destruct (lookup_lt_is_Some_2 b k) as [y Hy].
  { rewrite <- Hlen. by eapply lookup_lt_Some. }
  specialize (Hall k NaN y Hk Hy). by rewrite ge_nan_l in Hall.
Qed.

(** C10: the function does not look at the finiteness of the components.
    On an array of shape [(N, M)] it returns normally, and a candidate
    whose score vector has a NaN is returned: the test of the inner loop
    is false for it against every [j], and it is false for every
    candidate against it. *)
Theorem nan_rows_retained M rows :
  rectangular M rows ->
  exists ids,
    identify_pareto (Array2 rows) = Ok ids /\
    forall i ri, rows !! i = Some ri -> NaN ∈ ri ->
      i ∈ ids /\
      forall j, j < length rows ->
        dominated_test (Array2 rows) i j = Ok false /\
        dominated_test (Array2 rows) j i = Ok false.
Proof.
  intros Hrect. exists (pareto_ids rows).
  split; [by eapply identify_pareto_rows|].
  intros i ri Hi Hnan.
  assert (Hlen : forall j rj, rows !! j = Some rj -> length rj = length ri).
  { intros j rj Hj.
    by rewrite (rectangular_lookup M rows j rj),
               (rectangular_lookup M rows i ri). }
  split.
  - apply elem_of_pareto_ids. exists ri. split; [done|].
    apply dominated_false. intros j rj Hj.
    apply dominates_nan_r; [eauto | done].
  - intros j Hj. destruct (lookup_lt_is_Some_2 rows j Hj) as [rj Hrj].
    rewrite (dominated_test_rows rows i j ri rj) by eauto.
    rewrite (dominated_test_rows rows j i rj ri) by (symmetry; eauto).
    rewrite (dominates_nan_r rj ri) by eauto.
    rewrite (dominates_nan_l ri rj); [done | symmetry; eauto | done].
Qed.

Lemma nan_rows_retained_witness :
  let rows := [[NaN; Finite 1]; [Finite 2; Finite 2]] in
  rectangular 2 rows /\
  exists ids,
    identify_pareto (Array2 rows) = Ok ids /\
    forall i ri, rows !! i = Some ri -> NaN ∈ ri ->
      i ∈ ids /\
      forall j, j < length rows ->
        dominated_test (Array2 rows) i j = Ok false /\
        dominated_test (Array2 rows) j i = Ok false.
Proof.
  intros rows.
  assert (Hrect : rectangular 2 rows) by (repeat constructor).
  split; [exact Hrect | exact (nan_rows_retained 2 rows Hrect)].
Defined.

(** ** Validation of the input *)








(** ** Early exit *)

(** C8: on every valid input the function, which leaves the inner loop at
    the first candidate that dominates [i], returns what the variant that
    tests all the candidates and combines the outcomes returns, and for
    every candidate [i] the two inner loops take the same decision. *)
Theorem early_exit_is_full_scan M rows :
  valid M rows ->
  (exists ids,
     identify_pareto (Array2 rows) = Ok ids /\
     identify_pareto_naive (Array2 rows) = Ok ids) /\
  (forall i pf, i < length rows ->
     exists d,
       scan_all (Array2 rows) i (seq 0 (length rows)) = Ok d /\
       inner_loop (Array2 rows) i (seq 0 (length rows)) pf =
         Ok (if d then <[i := false]> pf else pf)).
Proof.
  intros Hvalid. pose proof (valid_rectangular M rows Hvalid) as Hrect.
  split.
  - exists (pareto_ids rows).
    split; [by eapply identify_pareto_rows | by eapply identify_pareto_naive_rows].
  - intros i pf Hi. destruct (lookup_lt_is_Some_2 rows i Hi) as [ri Hri].
    exists (dominated rows ri).
    rewrite (scan_all_rows M rows Hrect i ri) by (done || apply Forall_seq; lia).
    rewrite (inner_loop_rows M rows Hrect i ri) by (done || apply Forall_seq; lia).
    by rewrite take_rows_all.
Qed.

Lemma early_exit_is_full_scan_witness :
  valid 2 scores /\
  (exists ids,
     identify_pareto (Array2 scores) = Ok ids /\
     identify_pareto_naive (Array2 scores) = Ok ids) /\
  (forall i pf, i < length scores ->
     exists d,
       scan_all (Array2 scores) i (seq 0 (length scores)) = Ok d /\
       inner_loop (Array2 scores) i (seq 0 (length scores)) pf =
         Ok (if d then <[i := false]> pf else pf)).
Proof.
  assert (Hvalid : valid 2 scores) by valid_array.
  split; [exact Hvalid | exact (early_exit_is_full_scan 2 scores Hvalid)].
Defined.

(** ** Candidates that are maximal *)

Lemma all_ge_total a b :
  Forall (fun v => is_finite v = true) a ->
  Forall (fun v => is_finite v = true) b ->
  length a = length b ->
  forallb id (zip_with ge a b) = true -> (total b <= total a)%Q.
Proof.
  intros Ha. revert b.
  induction Ha as [|x a Hx Ha IH]; intros b Hb Hlen Hall;
    destruct Hb as [|y b Hy Hb]; simpl in Hlen; try discriminate Hlen.
  - apply Qle_refl.
  - destruct x as [p| | |], y as [q| | |]; try discriminate.
    simpl in Hall. apply andb_true_iff in Hall as [Hpq Hall].
    apply Qle_bool_iff in Hpq.
    injection Hlen as Hlen.
    specialize (IH b Hb Hlen Hall). simpl. lra.
Qed.

(** A score vector that dominates another has a larger sum. *)
Lemma dominates_total a b :
  Forall (fun v => is_finite v = true) a ->
  Forall (fun v => is_finite v = true) b ->
  length a = length b ->
  dominates a b = true -> (total b < total a)%Q.
Proof.
  intros Ha. revert b.
  induction Ha as [|x a Hx Ha IH]; intros b Hb Hlen Hdom;
    destruct Hb as [|y b Hy Hb]; simpl in Hlen; try discriminate.
  destruct x as [p| | |], y as [q| | |]; try discriminate.
  injection Hlen as Hlen.
  unfold dominates in Hdom. simpl in Hdom.
  apply andb_true_iff in Hdom as [Hall Hany].
  apply andb_true_iff in Hall as [Hpq Hall].
  apply Qle_bool_iff in Hpq.
  apply orb_true_iff in Hany as [Hgt | Hany].
  - apply (gt_Finite p q) in Hgt.
    pose proof (all_ge_total a b Ha Hb Hlen Hall). simpl. lra.
  - assert (total b < total a)%Q.
    { apply IH; try done. unfold dominates. by rewrite Hall, Hany. }
    simpl. lra.
Qed.

(** A list of indices that is not empty has an index where [g] is the
    largest. *)
Lemma argmax_exists (g : nat -> Q) (l : list nat) :
  l <> [] -> exists k, k ∈ l /\ forall j, j ∈ l -> (g j <= g k)%Q.
Proof.
  induction l as [|i l IH]; [done|]. intros _.
  destruct l as [|i' l].
  - exists i. split; [left|]. intros j Hj.
    apply list_elem_of_singleton in Hj as ->. apply Qle_refl.
  - destruct IH as (k & Hk & Hmax); [done|].
    destruct (Qlt_le_dec (g k) (g i)) as [Hlt | Hle].
    + exists i. split; [left|]. intros j Hj.
      apply elem_of_cons in Hj as [-> | Hj]; [apply Qle_refl|].
      specialize (Hmax j Hj). lra.
    + exists k. split; [by right|]. intros j Hj.
      apply elem_of_cons in Hj as [-> | Hj]; [done | by apply Hmax].
Qed.

(** Among candidates [l] that contain every candidate dominating one of
    them, one is returned. *)
Lemma maximal_retained M rows (l : list nat) :
  valid M rows ->
  l <> [] ->
  (forall k, k ∈ l -> k < length rows) ->
  (forall k j rk rj, k ∈ l -> rows !! k = Some rk -> rows !! j = Some rj ->
     dominates rj rk = true -> j ∈ l) ->
  exists k, k ∈ l /\ k ∈ pareto_ids rows.
Proof.
  intros Hvalid Hne Hrange Hclosed.
  destruct (argmax_exists (fun j => total (default [] (rows !! j))) l Hne)
    as (k & Hk & Hmax).
  exists k. split; [done|].
  destruct (lookup_lt_is_Some_2 rows k (Hrange k Hk)) as [rk Hrk].
  apply elem_of_pareto_ids. exists rk. split; [done|].
  apply dominated_false. intros j rj Hrj.
  apply not_true_iff_false. intros Hdom.
  specialize (Hmax j (Hclosed k j rk rj Hk Hrk Hrj Hdom)).
  rewrite Hrk, Hrj in Hmax. simpl in Hmax.
  assert (total rk < total rj)%Q; [|lra].
  apply dominates_total; [by eapply valid_finite | by eapply valid_finite | | done].
  pose proof (valid_rectangular M rows Hvalid) as Hrect.
  by rewrite (rectangular_lookup M rows j rj),
             (rectangular_lookup M rows k rk).
Qed.

(** C3: on a valid population that is not empty the function returns at
    least one index. *)
Theorem identify_pareto_nonempty M rows :
  valid M rows -> 1 <= length rows ->
  exists ids, identify_pareto (Array2 rows) = Ok ids /\ ids <> [].
Proof.
  intros Hvalid Hlen. exists (pareto_ids rows).
  split; [by eapply identify_pareto_rows, valid_rectangular|].
  destruct (maximal_retained M rows (seq 0 (length rows)) Hvalid)
    as (k & _ & Hk).
  - destruct rows; simpl in *; [lia | done].
  - intros k Hk. apply elem_of_seq in Hk. lia.
  - intros k j rk rj _ _ Hrj _. apply elem_of_seq.
    apply lookup_lt_Some in Hrj. lia.
  - intros Hnil. rewrite Hnil in Hk. by apply not_elem_of_nil in Hk.
Qed.

Lemma identify_pareto_nonempty_witness :
  valid 2 scores /\ 1 <= length scores /\
  exists ids, identify_pareto (Array2 scores) = Ok ids /\ ids <> [].
Proof.
  assert (Hvalid : valid 2 scores) by valid_array.
  assert (Hlen : 1 <= length scores) by (simpl; lia).
  split; [exact Hvalid|].
  split; [exact Hlen | exact (identify_pareto_nonempty 2 scores Hvalid Hlen)].
Defined.

(** ** The candidates with the largest value of one objective *)

Lemma dominates_coord M c a b :
  Forall (fun v => is_finite v = true) a ->
  Forall (fun v => is_finite v = true) b ->
  length a = M -> length b = M -> c < M ->
  dominates a b = true -> (coord c b <= coord c a)%Q.
Proof.
  intros Ha Hb Hla Hlb Hc Hdom.
  destruct (lookup_lt_is_Some_2 a c) as [x Hx]; [lia|].
  destruct (lookup_lt_is_Some_2 b c) as [y Hy]; [lia|].
  apply dominates_lookup in Hdom as [Hall _].
  specialize (Hall c x y Hx Hy).
  destruct (finite_lookup a c x Ha Hx) as [p ->].
  destruct (finite_lookup b c y Hb Hy) as [q ->].
  unfold coord. rewrite Hx, Hy. by apply ge_Finite.
Qed.

(** C4 as it is stated does not hold, a candidate with the largest value
    of an objective need not be returned: in [[1,1],[1,2]] candidate 0 has
    the largest value of objective 0, candidate 1 dominates it, and the
    function returns [1]. *)
Lemma maximizer_not_retained :
  ~ (forall M rows c k,
       valid M rows -> c < M -> achieves_max rows c k ->
       exists ids, identify_pareto (Array2 rows) = Ok ids /\ k ∈ ids).
Proof.
  intros Hclaim.
  destruct (Hclaim 2 (int_array [[1; 1]; [1; 2]]%Z) 0 0) as (ids & Hids & Hin).
  - valid_array.
  - lia.
  - eexists. split; [reflexivity|].
    intros [|[|j]] rj Hj; simpl in Hj; try discriminate;
      injection Hj as <-; vm_compute; discriminate.
  - vm_compute in Hids. injection Hids as <-.
    apply list_elem_of_singleton in Hin. discriminate.
Qed.

(** Among the candidates with the largest value of objective [c], one is
    dominated by no candidate. *)
Lemma maximizer_exists_retained M rows c :
  valid M rows -> 1 <= length rows -> c < M ->
  exists k, k ∈ pareto_ids rows /\ achieves_max rows c k.
Proof.
  intros Hvalid Hlen Hc.
  pose proof (valid_rectangular M rows Hvalid) as Hrect.
  assert (Hcoord : forall j k rj rk,
             rows !! j = Some rj -> rows !! k = Some rk ->
             dominates rj rk = true -> (coord c rk <= coord c rj)%Q).
  { intros j k rj rk Hj Hk. apply (dominates_coord M).
    - by eapply valid_finite.
    - by eapply valid_finite.
    - by eapply rectangular_lookup.
    - by eapply rectangular_lookup.
    - done. }
  set (g := fun j => coord c (default [] (rows !! j))).
  destruct (argmax_exists g (seq 0 (length rows))) as (k0 & Hk0 & Hmax).
  { destruct rows; simpl in *; [lia | done]. }
  set (l := filter (fun j => Qle_bool (g k0) (g j)) (seq 0 (length rows))).
  destruct (maximal_retained M rows l Hvalid) as (k & Hkl & Hk).
  - intros Hnil. assert (Hin : k0 ∈ l); [|by rewrite Hnil in Hin; inv Hin].
    apply list_elem_of_filter. split; [|done].
    apply Is_true_true, Qle_bool_iff, Qle_refl.
  - intros k Hk. apply list_elem_of_filter in Hk as [_ Hk].
    apply elem_of_seq in Hk. lia.
  - intros k j rk rj Hk Hrk Hrj Hdom.
    apply list_elem_of_filter in Hk as [Hk _].
    apply Is_true_true, Qle_bool_iff in Hk.
    apply list_elem_of_filter. split.
    + apply Is_true_true, Qle_bool_iff.
      pose proof (Hcoord j k rj rk Hrj Hrk Hdom) as Hle.
      unfold g in *. rewrite Hrk in Hk. rewrite Hrj. simpl in *. lra.
    + apply elem_of_seq. apply lookup_lt_Some in Hrj. lia.
  - exists k. split; [done|].
    apply list_elem_of_filter in Hkl as [Hge Hkin].
    apply Is_true_true, Qle_bool_iff in Hge.
    apply elem_of_seq in Hkin.
    destruct (lookup_lt_is_Some_2 rows k) as [rk Hrk]; [lia|].
    exists rk. split; [done|]. intros j rj Hrj.
    assert (Hj : j ∈ seq 0 (length rows)).
    { apply elem_of_seq. apply lookup_lt_Some in Hrj. lia. }
    specialize (Hmax j Hj). unfold g in *.
    rewrite Hrk in Hge. rewrite Hrj in Hmax. simpl in *. lra.
Qed.

(** C4, as amended: on a valid population, for every objective, a
    candidate with the largest value of the objective is returned exactly
    when no candidate with the largest value of the objective dominates
    it; and when the population is not empty at least one candidate with
    the largest value is returned. *)
Theorem maximizer_retained_iff M rows c :
  valid M rows -> c < M ->
  exists ids,
    identify_pareto (Array2 rows) = Ok ids /\
    (forall k rk,
       rows !! k = Some rk -> achieves_max rows c k ->
       (k ∈ ids <->
        forall j rj, rows !! j = Some rj -> achieves_max rows c j ->
                     ~ Dominates rj rk)) /\
    (1 <= length rows -> exists k, k ∈ ids /\ achieves_max rows c k).
Proof.
  intros Hvalid Hc.
  pose proof (valid_rectangular M rows Hvalid) as Hrect.
  exists (pareto_ids rows).
  split; [by eapply identify_pareto_rows|]. split.
  - intros k rk Hrk (rk' & Hrk' & Hmax).
    assert (rk' = rk) as -> by congruence.
    rewrite elem_of_pareto_ids. split.
    + intros (rk' & Hrk'' & Hnone) j rj Hrj _ HD.
      assert (rk' = rk) as -> by congruence.
      rewrite dominated_false in Hnone. specialize (Hnone j rj Hrj).
      apply dominates_Dominates in HD; [congruence| |];
        by eapply valid_finite.
    + intros Hco. exists rk. split; [done|].
      apply dominated_false. intros j rj Hrj.
      apply not_true_iff_false. intros Hdom.
      apply (Hco j rj Hrj).
      * exists rj. split; [done|]. intros j' rj' Hrj'.
        pose proof (Hmax j' rj' Hrj').
        assert (coord c rk <= coord c rj)%Q; [|lra].
        apply (dominates_coord M); try done.
        -- by eapply valid_finite.
        -- by eapply valid_finite.
        -- by eapply rectangular_lookup.
        -- by eapply rectangular_lookup.
      * apply dominates_Dominates; [| |done]; by eapply valid_finite.
  - intros Hlen. by apply (maximizer_exists_retained M).
Qed.

Lemma maximizer_retained_iff_witness :
  let rows := int_array [[5; 1]; [5; 2]; [0; 9]; [5; 2]]%Z in
  valid 2 rows /\ 0 < 2 /\
  exists ids,
    identify_pareto (Array2 rows) = Ok ids /\
    (forall k rk,
       rows !! k = Some rk -> achieves_max rows 0 k ->
       (k ∈ ids <->
        forall j rj, rows !! j = Some rj -> achieves_max rows 0 j ->
                     ~ Dominates rj rk)) /\
    (1 <= length rows -> exists k, k ∈ ids /\ achieves_max rows 0 k).
Proof.
  intros rows.
  assert (Hvalid : valid 2 rows) by valid_array.
  assert (Hc : 0 < 2) by lia.
  split; [exact Hvalid|]. split; [exact Hc|].
  exact (maximizer_retained_iff 2 rows 0 Hvalid Hc).
Defined.

(** ** Reordering of the population *)

Lemma dominated_Permutation rows rows' r :
  rows ≡ₚ rows' -> dominated rows r = dominated rows' r.
Proof.
  intros Hperm. unfold dominated.
  destruct (existsb _ rows') eqn:H'.
  - apply existsb_exists in H' as (r' & Hin & Hdom).
    apply existsb_exists. exists r'. split; [|done].
    apply list_elem_of_In. rewrite Hperm. by apply list_elem_of_In.
  - apply not_true_iff_false. intros H.
    apply existsb_exists in H as (r' & Hin & Hdom).
    apply not_true_iff_false in H'. apply H'.
    apply existsb_exists. exists r'. split; [|done].
    apply list_elem_of_In. rewrite <- Hperm. by apply list_elem_of_In.
Qed.

(** The score vectors of the returned candidates are the rows that no
    row dominates, in the order of the input. *)
Lemma retained_rows_from rows s :
  take_rows rows
    (filter (fun i => retained rows i) (seq s (length rows - s))) =
  filter (fun r => dominated rows r = false) (drop s rows).
Proof.
  remember (length rows - s) as n eqn:Hn.
  revert s Hn. induction n as [|n IH]; intros s Hn.
  - simpl. rewrite drop_ge by lia. done.
  - destruct (lookup_lt_is_Some_2 rows s) as [r Hr]; [lia|].
    assert (Hret : retained rows s = negb (dominated rows r)).
    { unfold retained. by rewrite Hr. }
    simpl seq. rewrite (drop_S _ _ _ Hr).
    destruct (dominated rows r) eqn:Hdom; simpl in Hret.
    + rewrite (filter_cons_False (fun i => retained rows i))
        by (rewrite Hret; intros []).
      rewrite (filter_cons_False (fun r => dominated rows r = false))
        by (by rewrite Hdom).
      apply IH. lia.
    + rewrite (filter_cons_True (fun i => retained rows i))
        by (rewrite Hret; exact I).
      rewrite (filter_cons_True (fun r => dominated rows r = false))
        by done.
      rewrite (take_rows_cons _ _ _ r) by done. f_equal. apply IH. lia.
Qed.

Lemma retained_rows rows :
  take_rows rows (pareto_ids rows) =
  filter (fun r => dominated rows r = false) rows.
Proof.
  pose proof (retained_rows_from rows 0) as H.
  by rewrite Nat.sub_0_r in H.
Qed.

Lemma retained_rows_Permutation rows rows' :
  rows ≡ₚ rows' ->
  take_rows rows' (pareto_ids rows') ≡ₚ take_rows rows (pareto_ids rows).
Proof.
  intros Hperm. rewrite !retained_rows.
  rewrite <- Hperm.
  erewrite (list_filter_iff _ (fun r => dominated rows r = false));
    [done|].
  intros r. by rewrite (dominated_Permutation rows rows' r).
Qed.

Lemma take_rows_lookup rows sigma p :
  Forall (fun i => i < length rows) sigma ->
  take_rows rows sigma !! p = sigma !! p ≫= (rows !!.).
Proof.
  intros Hsigma. revert p. induction Hsigma as [|i sigma Hi Hsigma IH];
    intros p; [done|].
  destruct (lookup_lt_is_Some_2 rows i Hi) as [r Hr].
  rewrite (take_rows_cons _ _ _ r) by done.
  destruct p as [|p]; simpl; [done | apply IH].
Qed.

Lemma take_rows_Permutation rows sigma :
  sigma ≡ₚ seq 0 (length rows) -> take_rows rows sigma ≡ₚ rows.
Proof.
  intros Hperm. unfold take_rows. rewrite Hperm.
  fold (take_rows rows (seq 0 (length rows))). by rewrite take_rows_all.
Qed.

(** C7: on a valid population, the score vectors the function selects
    from a permutation of the rows are, up to their order, the score
    vectors it selects from the rows; and when the rows are permuted by
    [sigma], position [p] is returned exactly when the index [sigma[p]] is
    returned for the rows in their first order. *)
Theorem identify_pareto_permutation M rows :
  valid M rows ->
  (forall rows',
     rows ≡ₚ rows' ->
     exists ids ids',
       identify_pareto (Array2 rows) = Ok ids /\
       identify_pareto (Array2 rows') = Ok ids' /\
       take_rows rows' ids' ≡ₚ take_rows rows ids) /\
  (forall sigma,
     sigma ≡ₚ seq 0 (length rows) ->
     exists ids ids',
       identify_pareto (Array2 rows) = Ok ids /\
       identify_pareto (Array2 (take_rows rows sigma)) = Ok ids' /\
       forall p i, sigma !! p = Some i -> (p ∈ ids' <-> i ∈ ids)).
Proof.
  intros Hvalid. pose proof (valid_rectangular M rows Hvalid) as Hrect.
  split.
  - intros rows' Hperm. exists (pareto_ids rows), (pareto_ids rows').
    split; [by eapply identify_pareto_rows|].
    split; [|by apply retained_rows_Permutation].
    apply (identify_pareto_rows M). unfold rectangular. by rewrite <- Hperm.
  - intros sigma Hsigma.
    pose proof (take_rows_Permutation rows sigma Hsigma) as Hperm.
    exists (pareto_ids rows), (pareto_ids (take_rows rows sigma)).
    split; [by eapply identify_pareto_rows|].
    split.
    { apply (identify_pareto_rows M). unfold rectangular. by rewrite Hperm. }
    intros p i Hp. rewrite !elem_of_pareto_ids.
    rewrite take_rows_lookup, Hp; simpl.
    + by setoid_rewrite (dominated_Permutation _ _ _ Hperm).
    + rewrite Hsigma. apply Forall_seq. intros; lia.
Qed.

Lemma identify_pareto_permutation_witness :
  let rows := int_array [[1; 1]; [1; 2]; [3; 0]]%Z in
  valid 2 rows /\
  (exists ids ids',
     identify_pareto (Array2 rows) = Ok ids /\
     identify_pareto (Array2 (take_rows rows [2; 0; 1])) = Ok ids' /\
     forall p i, [2; 0; 1] !! p = Some i -> (p ∈ ids' <-> i ∈ ids)).
Proof.
  intros rows.
  assert (Hvalid : valid 2 rows) by valid_array.
  split; [exact Hvalid|].
  destruct (identify_pareto_permutation 2 rows Hvalid) as [_ Hsigma].
  apply (Hsigma [2; 0; 1]).
  exact (Permutation_cons_append [0; 1] 2).
Defined.

(** * Further properties *)

(** ** The order of the comparisons *)

Lemma ge_trans x y z : ge x y = true -> ge y z = true -> ge x z = true.
Proof. value_order. Qed.

Lemma gt_ge_trans x y z : gt x y = true -> ge y z = true -> gt x z = true.
Proof. value_order. Qed.

Lemma ge_gt_trans x y z : ge x y = true -> gt y z = true -> gt x z = true.
Proof. value_order. Qed.

Lemma gt_not_ge x y : gt x y = true -> ge y x = false.
Proof. value_order. Qed.

Lemma dominates_trans a b c :
  length a = length b -> length b = length c ->
  dominates a b = true -> dominates b c = true -> dominates a c = true.
Proof.
  intros Hab Hbc. rewrite !dominates_lookup.
  intros [Hall1 (k & x & y & Hx & Hy & Hgt)] [Hall2 _]. split.
  - intros k' x' z' Hx' Hz'.
    destruct (lookup_lt_is_Some_2 b k') as [y' Hy'].
    { rewrite <- Hab. by eapply lookup_lt_Some. }
    eapply ge_trans; eauto.
  - destruct (lookup_lt_is_Some_2 c k) as [z Hz].
    { rewrite <- Hbc. by eapply lookup_lt_Some. }
    exists k, x, z. split; [done|]. split; [done|].
    eapply gt_ge_trans; eauto.
Qed.

Lemma dominates_asym a b :
  dominates a b = true -> dominates b a = false.
Proof.
  rewrite dominates_lookup. intros [_ (k & x & y & Hx & Hy & Hgt)].
  apply not_true_iff_false. rewrite dominates_lookup. intros [Hall _].
  specialize (Hall k y x Hy Hx). by rewrite (gt_not_ge x y Hgt) in Hall.
Qed.

Lemma rectangular_same_length M rows i j ri rj :
  rectangular M rows -> rows !! i = Some ri -> rows !! j = Some rj ->
  length rj = length ri.
Proof.
  intros Hrect Hi Hj.
  by rewrite (rectangular_lookup M rows j rj),
             (rectangular_lookup M rows i ri).
Qed.

(** X5: on an array of shape [(N, M)], whatever its components, the test
    of the inner loop is a strict order on the candidates: when [j]
    dominates [i], [i] does not dominate [j]; and when [j] dominates [i]
    and [k] dominates [j], [k] dominates [i]. *)
Theorem dominated_test_strict_order M rows i j k :
  rectangular M rows ->
  i < length rows -> j < length rows -> k < length rows ->
  (dominated_test (Array2 rows) i j = Ok true ->
   dominated_test (Array2 rows) j i = Ok false) /\
  (dominated_test (Array2 rows) i j = Ok true ->
   dominated_test (Array2 rows) j k = Ok true ->
   dominated_test (Array2 rows) i k = Ok true).
Proof.
  intros Hrect Hi Hj Hk.
  destruct (lookup_lt_is_Some_2 rows i Hi) as [ri Hri].
  destruct (lookup_lt_is_Some_2 rows j Hj) as [rj Hrj].
  destruct (lookup_lt_is_Some_2 rows k Hk) as [rk Hrk].
  rewrite (dominated_test_rows rows i j ri rj)
    by eauto using rectangular_same_length.
  rewrite (dominated_test_rows rows j i rj ri)
    by eauto using rectangular_same_length.
  rewrite (dominated_test_rows rows j k rj rk)
    by eauto using rectangular_same_length.
  rewrite (dominated_test_rows rows i k ri rk)
    by eauto using rectangular_same_length.
  split.
  - intros Hji. injection Hji as Hji. by rewrite (dominates_asym rj ri).
  - intros Hji Hkj. injection Hji as Hji. injection Hkj as Hkj.
    rewrite (dominates_trans rk rj ri);
      eauto using rectangular_same_length.
Qed.

Lemma dominated_test_strict_order_witness :
  let rows := [[Finite 1; NegInf]; [Finite 1; Finite 0]; [PosInf; Finite 0]] in
  rectangular 2 rows /\ 0 < length rows /\ 1 < length rows /\
  2 < length rows /\
  (dominated_test (Array2 rows) 0 1 = Ok true ->
   dominated_test (Array2 rows) 1 0 = Ok false) /\
  (dominated_test (Array2 rows) 0 1 = Ok true ->
   dominated_test (Array2 rows) 1 2 = Ok true ->
   dominated_test (Array2 rows) 0 2 = Ok true).
Proof.
  intros rows.
  assert (Hrect : rectangular 2 rows) by (repeat constructor).
  assert (H0 : 0 < length rows) by (simpl; lia).
  assert (H1 : 1 < length rows) by (simpl; lia).
  assert (H2 : 2 < length rows) by (simpl; lia).
  split; [exact Hrect|]. split; [exact H0|]. split; [exact H1|].
  split; [exact H2|].
  exact (dominated_test_strict_order 2 rows 0 1 2 Hrect H0 H1 H2).
Defined.

(** ** The returned candidates and the others *)

(** A dominated candidate of a valid input is dominated by a candidate
    that no candidate dominates. *)
Lemma dominated_by_retained M rows rk :
  valid M rows -> length rk = M -> dominated rows rk = true ->
  exists j rj,
    j ∈ pareto_ids rows /\ rows !! j = Some rj /\ dominates rj rk = true.
Proof.
  intros Hvalid Hlen Hdom.
  pose proof (valid_rectangular M rows Hvalid) as Hrect.
  apply dominated_true in Hdom as (j0 & rj0 & Hrj0 & Hdom0).
  set (beats := fun j => match rows !! j with
                         | Some rj => dominates rj rk
                         | None => false
                         end).
  destruct (maximal_retained M rows
              (filter (fun j => beats j) (seq 0 (length rows))) Hvalid)
    as (j & Hj & Hret).
  - intros Hnil.
    assert (Hin : j0 ∈ filter (fun j => beats j) (seq 0 (length rows)));
      [|by rewrite Hnil in Hin; inv Hin].
    apply list_elem_of_filter. split.
    + unfold beats. rewrite Hrj0, Hdom0. exact I.
    + apply elem_of_seq. apply lookup_lt_Some in Hrj0. lia.
  - intros j Hj. apply list_elem_of_filter in Hj as [_ Hj].
    apply elem_of_seq in Hj. lia.
  - intros j1 j2 r1 r2 Hj1 Hr1 Hr2 Hdom.
    apply list_elem_of_filter in Hj1 as [Hb1 _].
    unfold beats in Hb1. rewrite Hr1 in Hb1. apply Is_true_true in Hb1.
    apply list_elem_of_filter. split.
    + unfold beats. rewrite Hr2.
      rewrite (dominates_trans r2 r1 rk); try done.
      * eauto using rectangular_same_length.
      * by rewrite (rectangular_lookup M rows j1 r1).
    + apply elem_of_seq. apply lookup_lt_Some in Hr2. lia.
  - apply list_elem_of_filter in Hj as [Hb _].
    unfold beats in Hb. destruct (rows !! j) as [rj|] eqn:Hrj; [|done].
    apply Is_true_true in Hb. by exists j, rj.
Qed.

(** X6: on a valid input, every candidate that is not returned is
    dominated by a candidate that is returned. *)
Theorem rejected_dominated_by_returned M rows :
  valid M rows ->
  exists ids,
    identify_pareto (Array2 rows) = Ok ids /\
    forall k rk, rows !! k = Some rk -> k ∉ ids ->
      exists j rj, j ∈ ids /\ rows !! j = Some rj /\ Dominates rj rk.
Proof.
  intros Hvalid. pose proof (valid_rectangular M rows Hvalid) as Hrect.
  exists (pareto_ids rows).
  split; [by eapply identify_pareto_rows|].
  intros k rk Hrk Hnot. rewrite elem_of_pareto_ids in Hnot.
  destruct (dominated rows rk) eqn:Hdom; [|destruct Hnot; eauto].
  destruct (dominated_by_retained M rows rk Hvalid) as (j & rj & Hj & Hrj & Hd);
    [by eapply rectangular_lookup | done |].
  exists j, rj. split; [done|]. split; [done|].
  apply dominates_Dominates; [| |done]; by eapply valid_finite.
Qed.

Lemma rejected_dominated_by_returned_witness :
  valid 2 scores /\
  exists ids,
    identify_pareto (Array2 scores) = Ok ids /\
    forall k rk, scores !! k = Some rk -> k ∉ ids ->
      exists j rj, j ∈ ids /\ scores !! j = Some rj /\ Dominates rj rk.
Proof.
  assert (Hvalid : valid 2 scores) by valid_array.
  split; [exact Hvalid | exact (rejected_dominated_by_returned 2 scores Hvalid)].
Defined.

(** ** The scores of the front *)

Lemma take_items_in_range {A} (l : list A) ids :
  Forall (fun i => i < length l) ids ->
  take_items l ids = Ok (omap (fun i => l !! i) ids).
Proof.
  induction 1 as [|i ids Hi Hids IH]; [done|].
  destruct (lookup_lt_is_Some_2 l i Hi) as [x Hx].
  simpl. by rewrite Hx, IH.
Qed.

Lemma pareto_ids_in_range rows :
  Forall (fun i => i < length rows) (pareto_ids rows).
Proof.
  apply Forall_forall. intros i Hi.
  apply elem_of_pareto_ids in Hi as (ri & Hri & _).
  by eapply lookup_lt_Some.
Qed.

Lemma elem_of_retained_rows rows r :
  r ∈ take_rows rows (pareto_ids rows) <->
  r ∈ rows /\ forall r', r' ∈ rows -> dominates r' r = false.
Proof.
  rewrite retained_rows, list_elem_of_filter, dominated_false.
  split; intros [H1 H2].
  - split; [done|]. intros r' Hr'.
    apply list_elem_of_lookup in Hr' as [j Hj]. eauto.
  - split; [|done]. intros j rj Hj. apply H2.
    by eapply list_elem_of_lookup_2.
Qed.

(** X1: on an array of shape [(N, M)] the two lines
    [pareto = identify_pareto(scores)] and [pareto_front = scores[pareto]]
    raise nothing: no index is out of range.  The front keeps the rows in
    their order, and a row is in the front exactly when it is a row of the
    array that no row of the array dominates. *)
Theorem pareto_front_scores_rows M rows :
  rectangular M rows ->
  exists front,
    pareto_front_scores (Array2 rows) = Ok (Array2 front) /\
    front `sublist_of` rows /\
    forall r, r ∈ front <->
      r ∈ rows /\ forall r', r' ∈ rows -> dominates r' r = false.
Proof.
  intros Hrect. exists (take_rows rows (pareto_ids rows)).
  split; [|split].
  - unfold pareto_front_scores.
    rewrite (identify_pareto_rows M rows Hrect). simpl.
    by rewrite (take_items_in_range rows _ (pareto_ids_in_range rows)).
  - rewrite retained_rows. apply sublist_filter.
  - apply elem_of_retained_rows.
Qed.

Lemma pareto_front_scores_rows_witness :
  let rows := [[Finite 1; NaN]; [Finite 1; Finite 0]; [PosInf; Finite 0]] in
  rectangular 2 rows /\
  exists front,
    pareto_front_scores (Array2 rows) = Ok (Array2 front) /\
    front `sublist_of` rows /\
    forall r, r ∈ front <->
      r ∈ rows /\ forall r', r' ∈ rows -> dominates r' r = false.
Proof.
  intros rows.
  assert (Hrect : rectangular 2 rows) by (repeat constructor).
  split; [exact Hrect | exact (pareto_front_scores_rows 2 rows Hrect)].
Defined.

Lemma filter_iff_elem {A} (P Q : A -> Prop)
    `{!forall x, Decision (P x), !forall x, Decision (Q x)} (l : list A) :
  (forall x, x ∈ l -> P x <-> Q x) -> filter P l = filter Q l.
Proof.
  induction l as [|x l IH]; intros Hiff; [done|].
  assert (Hl : filter P l = filter Q l).
  { apply IH. intros y Hy. apply Hiff. by right. }
  destruct (decide (P x)) as [HP | HP].
  - rewrite (filter_cons_True P), (filter_cons_True Q), Hl; try done.
    apply Hiff; [left | done].
  - rewrite (filter_cons_False P), (filter_cons_False Q), Hl; try done.
    intros HQ. apply HP, Hiff; [left | done].
Qed.

Lemma rectangular_elem M rows r : rectangular M rows -> r ∈ rows -> length r = M.
Proof.
  intros Hrect Hr. unfold rectangular in Hrect.
  rewrite Forall_forall in Hrect. eauto.
Qed.

Lemma dominated_elem rows r :
  dominated rows r = true <-> exists r', r' ∈ rows /\ dominates r' r = true.
Proof.
  unfold dominated. rewrite existsb_exists.
  by setoid_rewrite list_elem_of_In.
Qed.

(** X4: the function applied to the front it has selected returns all the
    indices of the front: no row of the front is removed by a second
    pass. *)
Theorem front_of_front M rows :
  rectangular M rows ->
  exists front,
    pareto_front_scores (Array2 rows) = Ok (Array2 front) /\
    identify_pareto (Array2 front) = Ok (seq 0 (length front)).
Proof.
  intros Hrect. set (front := take_rows rows (pareto_ids rows)).
  exists front. split.
  - unfold pareto_front_scores.
    rewrite (identify_pareto_rows M rows Hrect). simpl.
    by rewrite (take_items_in_range rows _ (pareto_ids_in_range rows)).
  - assert (Hfront : rectangular M front).
    { apply Forall_forall. intros r Hr.
      apply elem_of_retained_rows in Hr as [Hr _].
      by eapply rectangular_elem. }
    rewrite (identify_pareto_rows M front Hfront). f_equal.
    unfold pareto_ids. apply filter_all, Forall_forall. intros i Hi.
    apply elem_of_seq in Hi.
    destruct (lookup_lt_is_Some_2 front i) as [r Hr]; [lia|].
    unfold retained. rewrite Hr.
    replace (dominated front r) with false; [exact I|].
    symmetry. apply dominated_false. intros j rj Hrj.
    apply list_elem_of_lookup_2 in Hr, Hrj.
    apply elem_of_retained_rows in Hr as [_ Hr].
    apply elem_of_retained_rows in Hrj as [Hrj _]. by apply Hr.
Qed.

Lemma front_of_front_witness :
  let rows := [[Finite 1; NaN]; [Finite 1; Finite 0]; [PosInf; Finite 0]] in
  rectangular 2 rows /\
  exists front,
    pareto_front_scores (Array2 rows) = Ok (Array2 front) /\
    identify_pareto (Array2 front) = Ok (seq 0 (length front)).
Proof.
  intros rows.
  assert (Hrect : rectangular 2 rows) by (repeat constructor).
  split; [exact Hrect | exact (front_of_front 2 rows Hrect)].
Defined.

(** A row of the array is dominated in the array without the dominated
    candidate [k] exactly when it is dominated in the array. *)
Lemma dominated_delete M rows k rk r :
  rectangular M rows -> rows !! k = Some rk -> dominated rows rk = true ->
  r ∈ rows ->
  dominated (delete k rows) r = dominated rows r.
Proof.
  intros Hrect Hrk Hdom Hr.
  destruct (dominated rows r) eqn:Hd.
  - apply dominated_elem in Hd as (r' & Hr' & Hd).
    apply dominated_elem.
    apply list_elem_of_lookup in Hr' as [j Hj].
    destruct (decide (j = k)) as [-> | Hne].
    + assert (r' = rk) as -> by congruence.
      apply dominated_true in Hdom as (j' & rj' & Hj' & Hdom).
      exists rj'. split.
      * assert (j' <> k) as Hne.
        { intros ->. assert (rj' = rk) as -> by congruence.
          by rewrite dominates_irrefl in Hdom. }
        rewrite delete_take_drop. apply elem_of_app.
        destruct (decide (j' < k)) as [Hlt | Hge].
        -- left. apply list_elem_of_lookup. exists j'.
           by rewrite lookup_take_lt.
        -- right. apply list_elem_of_lookup. exists (j' - S k).
           rewrite lookup_drop. rewrite <- Hj'. f_equal. lia.
      * apply (dominates_trans rj' rk r); try done.
        -- eauto using rectangular_same_length.
        -- rewrite (rectangular_lookup M rows k rk),
                   (rectangular_elem M rows r); done.
    + exists r'. split; [|done].
      rewrite delete_take_drop. apply elem_of_app.
      destruct (decide (j < k)) as [Hlt | Hge].
      * left. apply list_elem_of_lookup. exists j.
        by rewrite lookup_take_lt.
      * right. apply list_elem_of_lookup. exists (j - S k).
        rewrite lookup_drop. rewrite <- Hj. f_equal. lia.
  - apply not_true_iff_false. intros Hd'.
    apply dominated_elem in Hd' as (r' & Hr' & Hd').
    apply list_elem_of_delete_inv in Hr'.
    apply not_true_iff_false in Hd. apply Hd.
    apply dominated_elem. eauto.
Qed.

(** X7: on an array of shape [(N, M)], a dominated candidate can be taken
    out of the population: the front of the remaining candidates is the
    front of the population, row for row. *)
Theorem front_without_dominated M rows k rk :
  rectangular M rows ->
  rows !! k = Some rk ->
  (exists j rj, rows !! j = Some rj /\ dominates rj rk = true) ->
  exists front,
    pareto_front_scores (Array2 rows) = Ok (Array2 front) /\
    pareto_front_scores (Array2 (delete k rows)) = Ok (Array2 front).
Proof.
  intros Hrect Hrk Hdom. apply dominated_true in Hdom.
  assert (Hrect' : rectangular M (delete k rows)).
  { apply Forall_forall. intros r Hr.
    apply list_elem_of_delete_inv in Hr. by eapply rectangular_elem. }
  exists (take_rows rows (pareto_ids rows)). split.
  - unfold pareto_front_scores.
    rewrite (identify_pareto_rows M rows Hrect). simpl.
    by rewrite (take_items_in_range rows _ (pareto_ids_in_range rows)).
  - unfold pareto_front_scores.
    rewrite (identify_pareto_rows M _ Hrect'). simpl.
    rewrite (take_items_in_range _ _ (pareto_ids_in_range _)).
    do 2 f_equal.
    fold (take_rows (delete k rows) (pareto_ids (delete k rows))).
    fold (take_rows rows (pareto_ids rows)).
    rewrite !retained_rows.
    rewrite (filter_iff_elem _ (fun r => dominated rows r = false)).
    + rewrite delete_take_drop.
      rewrite <- (take_drop_middle rows k rk Hrk) at 3.
      rewrite !filter_app. f_equal.
      rewrite filter_cons_False; [done|]. by rewrite Hdom.
    + intros r Hr. apply list_elem_of_delete_inv in Hr.
      by rewrite (dominated_delete M rows k rk r).
Qed.

Lemma front_without_dominated_witness :
  let rows := int_array [[1; 1]; [1; 2]; [3; 0]]%Z in
  let rk := map (fun z => Finite (inject_Z z)) [1; 1]%Z in
  rectangular 2 rows /\ rows !! 0 = Some rk /\
  (exists j rj, rows !! j = Some rj /\ dominates rj rk = true) /\
  exists front,
    pareto_front_scores (Array2 rows) = Ok (Array2 front) /\
    pareto_front_scores (Array2 (delete 0 rows)) = Ok (Array2 front).
Proof.
  intros rows rk.
  assert (Hrect : rectangular 2 rows) by (repeat constructor).
  assert (Hrk : rows !! 0 = Some rk) by reflexivity.
  assert (Hdom : exists j rj, rows !! j = Some rj /\ dominates rj rk = true).
  { exists 1, (map (fun z => Finite (inject_Z z)) [1; 2]%Z).
    split; reflexivity. }
  split; [exact Hrect|]. split; [exact Hrk|]. split; [exact Hdom|].
  exact (front_without_dominated 2 rows 0 rk Hrect Hrk Hdom).
Defined.

(** ** One and two objectives *)

Lemma coord_Finite c r q : r !! c = Some (Finite q) -> coord c r = q.
Proof. intros H. unfold coord. by rewrite H. Qed.

(** The test on two finite rows of length [M], objective by objective. *)
Lemma dominates_coords M a b :
  Forall (fun v => is_finite v = true) a ->
  Forall (fun v => is_finite v = true) b ->
  length a = M -> length b = M ->
  dominates a b = true <->
  (forall c, c < M -> (coord c b <= coord c a)%Q) /\
  (exists c, c < M /\ (coord c b < coord c a)%Q).
Proof.
  intros Ha Hb Hla Hlb. rewrite dominates_Dominates by done.
  unfold Dominates. split.
  - intros [Hall (c & p & q & Hp & Hq & Hlt)]. split.
    + intros c' Hc'.
      destruct (lookup_lt_is_Some_2 a c') as [x Hx]; [lia|].
      destruct (lookup_lt_is_Some_2 b c') as [y Hy]; [lia|].
      destruct (finite_lookup a c' x Ha Hx) as [p' ->].
      destruct (finite_lookup b c' y Hb Hy) as [q' ->].
      rewrite (coord_Finite c' a p'), (coord_Finite c' b q') by done. eauto.
    + exists c. split; [apply lookup_lt_Some in Hp; lia|].
      by rewrite (coord_Finite c a p), (coord_Finite c b q).
  - intros [Hall (c & Hc & Hlt)]. split.
    + intros c' p q Hp Hq.
      rewrite <- (coord_Finite c' a p), <- (coord_Finite c' b q) by done.
      apply Hall. apply lookup_lt_Some in Hp. lia.
    + destruct (lookup_lt_is_Some_2 a c) as [x Hx]; [lia|].
      destruct (lookup_lt_is_Some_2 b c) as [y Hy]; [lia|].
      destruct (finite_lookup a c x Ha Hx) as [p ->].
      destruct (finite_lookup b c y Hb Hy) as [q ->].
      exists c, p, q.
      by rewrite (coord_Finite c a p), (coord_Finite c b q) in Hlt.
Qed.

Lemma valid_dominates_coords M rows i j ri rj :
  valid M rows -> rows !! i = Some ri -> rows !! j = Some rj ->
  dominates rj ri = true <->
  (forall c, c < M -> (coord c ri <= coord c rj)%Q) /\
  (exists c, c < M /\ (coord c ri < coord c rj)%Q).
Proof.
  intros Hvalid Hi Hj. pose proof (valid_rectangular M rows Hvalid) as Hrect.
  apply dominates_coords.
  - by eapply valid_finite.
  - by eapply valid_finite.
  - by eapply rectangular_lookup.
  - by eapply rectangular_lookup.
Qed.

(** X2: with one objective the function returns exactly the candidates
    that have the largest score, all of them when several have it. *)
Theorem single_objective_maxima rows :
  valid 1 rows ->
  exists ids,
    identify_pareto (Array2 rows) = Ok ids /\
    forall i, i ∈ ids <-> achieves_max rows 0 i.
Proof.
  intros Hvalid. exists (pareto_ids rows).
  split; [by eapply identify_pareto_rows, valid_rectangular|].
  intros i. rewrite elem_of_pareto_ids. unfold achieves_max.
  split; intros (ri & Hri & H); exists ri; (split; [done|]).
  - intros j rj Hrj. rewrite dominated_false in H.
    destruct (Qlt_le_dec (coord 0 ri) (coord 0 rj)) as [Hlt | Hle]; [|done].
    specialize (H j rj Hrj). apply not_true_iff_false in H.
    destruct H. apply (valid_dominates_coords 1 rows i j); try done.
    split.
    + intros c Hc. assert (c = 0) as -> by lia. lra.
    + exists 0. split; [lia | done].
  - apply dominated_false. intros j rj Hrj.
    apply not_true_iff_false. intros Hdom.
    apply (valid_dominates_coords 1 rows i j) in Hdom as [_ (c & Hc & Hlt)];
      try done.
    assert (c = 0) as -> by lia.
    specialize (H j rj Hrj). lra.
Qed.

Lemma single_objective_maxima_witness :
  let rows := int_array [[3]; [7]; [2]; [7]]%Z in
  valid 1 rows /\
  exists ids,
    identify_pareto (Array2 rows) = Ok ids /\
    forall i, i ∈ ids <-> achieves_max rows 0 i.
Proof.
  intros rows.
  assert (Hvalid : valid 1 rows) by valid_array.
  split; [exact Hvalid | exact (single_objective_maxima rows Hvalid)].
Defined.

(** X3: with two objectives, once the rows of the front are put in
    ascending order of the first objective, the second objective is in
    descending order along them, and it goes down where the first goes
    up.  This holds for every arrangement the sort can give to rows that
    have one value of the first objective. *)
Theorem sorted_front_descending rows front sorted :
  valid 2 rows ->
  pareto_front_scores (Array2 rows) = Ok (Array2 front) ->
  sorted_by 0 front sorted ->
  forall p q a b,
    p < q -> sorted !! p = Some a -> sorted !! q = Some b ->
    (coord 1 b <= coord 1 a)%Q /\
    ((coord 0 a < coord 0 b)%Q -> (coord 1 b < coord 1 a)%Q).
Proof.
  intros Hvalid Hfront [Hperm Hsorted] p q a b Hpq Ha Hb.
  pose proof (valid_rectangular 2 rows Hvalid) as Hrect.
  unfold pareto_front_scores in Hfront.
  rewrite (identify_pareto_rows 2 rows Hrect) in Hfront. simpl in Hfront.
  rewrite (take_items_in_range rows _ (pareto_ids_in_range rows)) in Hfront.
  simpl in Hfront. injection Hfront as <-.
  fold (take_rows rows (pareto_ids rows)) in Hperm.
  pose proof (Hsorted p q a b Hpq Ha Hb) as H0.
  apply list_elem_of_lookup_2 in Ha, Hb.
  rewrite Hperm in Ha, Hb.
  apply elem_of_retained_rows in Ha as [Ha Hnone].
  apply elem_of_retained_rows in Hb as [Hb _].
  specialize (Hnone b Hb). apply not_true_iff_false in Hnone.
  apply list_elem_of_lookup in Ha as [i Hi].
  apply list_elem_of_lookup in Hb as [j Hj].
  rewrite (valid_dominates_coords 2 rows i j a b Hvalid Hi Hj) in Hnone.
  split.
  - destruct (Qlt_le_dec (coord 1 a) (coord 1 b)) as [Hlt | Hle]; [|done].
    destruct Hnone. split.
    + intros c Hc. destruct c as [|[|c]]; [done | lra | lia].
    + exists 1. split; [lia | done].
  - intros Hlt0.
    destruct (Qlt_le_dec (coord 1 b) (coord 1 a)) as [Hlt | Hle]; [done|].
    destruct Hnone. split.
    + intros c Hc. destruct c as [|[|c]]; [done | done | lia].
    + exists 0. split; [lia | done].
Qed.

Lemma sorted_front_descending_witness :
  let rows := int_array [[3; 3]; [1; 5]; [2; 2]]%Z in
  let front := int_array [[3; 3]; [1; 5]]%Z in
  let sorted := int_array [[1; 5]; [3; 3]]%Z in
  valid 2 rows /\
  pareto_front_scores (Array2 rows) = Ok (Array2 front) /\
  sorted_by 0 front sorted /\
  forall p q a b,
    p < q -> sorted !! p = Some a -> sorted !! q = Some b ->
    (coord 1 b <= coord 1 a)%Q /\
    ((coord 0 a < coord 0 b)%Q -> (coord 1 b < coord 1 a)%Q).
Proof.
  intros rows front sorted.
  assert (Hvalid : valid 2 rows) by valid_array.
  assert (Hfront : pareto_front_scores (Array2 rows) = Ok (Array2 front))
    by reflexivity.
  assert (Hsorted : sorted_by 0 front sorted).
  { split; [apply perm_swap|].
    intros [|[|p]] [|[|q]] a b Hpq Ha Hb; simpl in Ha, Hb;
      try discriminate; try lia.
    injection Ha as <-. injection Hb as <-. vm_compute. discriminate. }
  split; [exact Hvalid|]. split; [exact Hfront|]. split; [exact Hsorted|].
  exact (sorted_front_descending rows front sorted Hvalid Hfront Hsorted).
Defined.

(** ** Change of scale of the objectives *)

Section rescaling.
Variable f : nat -> Q -> Q.
Hypothesis f_increasing : forall c p q, (p <= q)%Q <-> (f c p <= f c q)%Q.

Lemma rescale_lookup r c :
  rescale f r !! c =
  (fun v => match v with Finite q => Finite (f c q) | _ => v end) <$> r !! c.
Proof. unfold rescale. apply list_lookup_imap. Qed.

Lemma Qle_bool_rescale c p q : Qle_bool (f c p) (f c q) = Qle_bool p q.
Proof.
  destruct (Qle_bool p q) eqn:H.
  - apply Qle_bool_iff. apply f_increasing. by apply Qle_bool_iff.
  - apply not_true_iff_false. apply not_true_iff_false in H.
    rewrite Qle_bool_iff in *. by rewrite <- f_increasing.
Qed.

Lemma ge_rescale c x y :
  ge (match x with Finite q => Finite (f c q) | _ => x end)
     (match y with Finite q => Finite (f c q) | _ => y end) = ge x y.
Proof. destruct x, y; simpl; try done. apply Qle_bool_rescale. Qed.

Lemma gt_rescale c x y :
  gt (match x with Finite q => Finite (f c q) | _ => x end)
     (match y with Finite q => Finite (f c q) | _ => y end) = gt x y.
Proof. destruct x, y; simpl; try done. by rewrite Qle_bool_rescale. Qed.

Lemma dominates_rescale a b :
  dominates (rescale f a) (rescale f b) = dominates a b.
Proof.
  destruct (dominates a b) eqn:H.
  - apply dominates_lookup in H as [Hall (k & x & y & Hx & Hy & Hgt)].
    apply dominates_lookup. split.
    + intros k' x' y'. rewrite !rescale_lookup.
      destruct (a !! k') as [u|] eqn:Hu, (b !! k') as [v|] eqn:Hv;
        simpl; try done.
      intros [= <-] [= <-]. rewrite ge_rescale. eauto.
    + exists k. eexists. eexists. rewrite !rescale_lookup, Hx, Hy. simpl.
      split; [done|]. split; [done|]. by rewrite gt_rescale.
  - apply not_true_iff_false. apply not_true_iff_false in H.
    intros H'. apply H. clear H.
    apply dominates_lookup in H' as [Hall (k & x & y & Hx & Hy & Hgt)].
    rewrite rescale_lookup in Hx, Hy.
    destruct (a !! k) as [u|] eqn:Hu, (b !! k) as [v|] eqn:Hv;
      simpl in Hx, Hy; try done.
    injection Hx as <-. injection Hy as <-. rewrite gt_rescale in Hgt.
    apply dominates_lookup. split.
    + intros k' x' y' Hx' Hy'. rewrite <- (ge_rescale k').
      apply (Hall k'); rewrite rescale_lookup; [by rewrite Hx' | by rewrite Hy'].
    + by exists k, u, v.
Qed.

Lemma dominated_rescale rows r :
  dominated (map (rescale f) rows) (rescale f r) = dominated rows r.
Proof.
  unfold dominated. induction rows as [|r' rows IH]; [done|].
  simpl. by rewrite dominates_rescale, IH.
Qed.

Lemma pareto_ids_rescale rows :
  pareto_ids (map (rescale f) rows) = pareto_ids rows.
Proof.
  unfold pareto_ids. rewrite length_map.
  apply list_filter_iff. intros i. unfold retained.
  rewrite list_lookup_fmap. destruct (rows !! i) as [r|]; simpl; [|done].
  by rewrite dominated_rescale.
Qed.

(** X8: the function only compares scores within one objective, so a
    change of scale of the objectives by increasing maps, one map for each
    objective, does not change the indices it returns. *)
Theorem identify_pareto_rescale M rows :
  rectangular M rows ->
  exists ids,
    identify_pareto (Array2 rows) = Ok ids /\
    identify_pareto (Array2 (map (rescale f) rows)) = Ok ids.
Proof.
  intros Hrect. exists (pareto_ids rows).
  split; [by eapply identify_pareto_rows|].
  rewrite <- pareto_ids_rescale. apply (identify_pareto_rows M).
  apply Forall_forall. intros r Hr.
  apply list_elem_of_fmap in Hr as (r0 & -> & Hr0).
  unfold rescale. rewrite length_imap. by eapply rectangular_elem.
Qed.
End rescaling.

Lemma identify_pareto_rescale_witness :
  let f := fun (c : nat) (q : Q) => (q + q + inject_Z (Z.of_nat c))%Q in
  (forall c p q, (p <= q)%Q <-> (f c p <= f c q)%Q) /\
  rectangular 2 scores /\
  exists ids,
    identify_pareto (Array2 scores) = Ok ids /\
    identify_pareto (Array2 (map (rescale f) scores)) = Ok ids.
Proof.
  intros f.
  assert (Hf : forall c p q, (p <= q)%Q <-> (f c p <= f c q)%Q).
  { intros c p q. unfold f. split; intros H; lra. }
  assert (Hrect : rectangular 2 scores) by (repeat constructor).
  split; [exact Hf|]. split; [exact Hrect|].
  exact (identify_pareto_rescale f Hf 2 scores Hrect).
Defined.

(** ** Two populations *)

Lemma dominated_app X Y r :
  dominated (X ++ Y) r = dominated X r || dominated Y r.
Proof. unfold dominated. apply existsb_app. Qed.

(** The rows that no row dominates stand for the population: they
    dominate what the population dominates. *)
Lemma dominated_front M X r :
  valid M X -> length r = M ->
  dominated (filter (fun x => dominated X x = false) X) r = dominated X r.
Proof.
  intros Hvalid Hlen. destruct (dominated X r) eqn:Hd.
  - destruct (dominated_by_retained M X r Hvalid Hlen Hd)
      as (j & rj & Hj & Hrj & Hdom).
    apply dominated_elem. exists rj. split; [|done].
    apply elem_of_pareto_ids in Hj as (rj' & Hrj' & Hnone).
    assert (rj' = rj) as -> by congruence.
    apply list_elem_of_filter. split; [done|].
    by eapply list_elem_of_lookup_2.
  - apply not_true_iff_false. apply not_true_iff_false in Hd.
    intros H. apply Hd. apply dominated_elem in H as (r' & Hr' & Hdom).
    apply list_elem_of_filter in Hr' as [_ Hr'].
    apply dominated_elem. eauto.
Qed.

Lemma valid_app M X Y : valid M X -> valid M Y -> valid M (X ++ Y).
Proof.
  intros (HM & HX1 & HX2) (_ & HY1 & HY2).
  split; [done|]. split; by apply Forall_app.
Qed.

Lemma front_filter M rows :
  rectangular M rows ->
  pareto_front_scores (Array2 rows) =
    Ok (Array2 (filter (fun r => dominated rows r = false) rows)).
Proof.
  intros Hrect. unfold pareto_front_scores.
  rewrite (identify_pareto_rows M rows Hrect). simpl.
  rewrite (take_items_in_range rows _ (pareto_ids_in_range rows)). simpl.
  do 2 f_equal. apply retained_rows.
Qed.

Lemma front_of_fronts_half M X Y Z :
  valid M X -> valid M Y ->
  (forall r, r ∈ Z -> r ∈ X ++ Y) ->
  (forall r, dominated (X ++ Y) r = false -> dominated Z r = false) ->
  filter (fun r => dominated
                     (filter (fun x => dominated X x = false) X ++
                      filter (fun y => dominated Y y = false) Y) r = false)
         (filter (fun r => dominated Z r = false) Z) =
  filter (fun r => dominated (X ++ Y) r = false) Z.
Proof.
  intros HX HY HZ Hsub. rewrite list_filter_filter.
  apply filter_iff_elem. intros r Hr.
  assert (Hlen : length r = M).
  { apply (rectangular_elem M (X ++ Y)); [|by apply HZ].
    by apply valid_rectangular, valid_app. }
  rewrite !dominated_app.
  rewrite (dominated_front M X r), (dominated_front M Y r) by done.
  rewrite <- dominated_app. split; [by intros [? _] | eauto].
Qed.

(** X9: the front of two valid populations put together is the front of
    their two fronts put together, row for row: each population can be
    reduced to its front before the populations are merged. *)
Theorem front_of_fronts M A B :
  valid M A -> valid M B ->
  exists fa fb fab,
    pareto_front_scores (Array2 A) = Ok (Array2 fa) /\
    pareto_front_scores (Array2 B) = Ok (Array2 fb) /\
    pareto_front_scores (Array2 (A ++ B)) = Ok (Array2 fab) /\
    pareto_front_scores (Array2 (fa ++ fb)) = Ok (Array2 fab).
Proof.
  intros HA HB.
  pose proof (valid_app M A B HA HB) as HAB.
  set (fa := filter (fun r => dominated A r = false) A).
  set (fb := filter (fun r => dominated B r = false) B).
  exists fa, fb, (filter (fun r => dominated (A ++ B) r = false) (A ++ B)).
  split; [by apply (front_filter M), valid_rectangular|].
  split; [by apply (front_filter M), valid_rectangular|].
  split; [by apply (front_filter M), valid_rectangular|].
  rewrite (front_filter M).
  - do 2 f_equal. rewrite !filter_app. f_equal.
    + apply (front_of_fronts_half M A B A); try done.
      * intros r Hr. apply elem_of_app. by left.
      * intros r. rewrite dominated_app. by intros [? _]%orb_false_iff.
    + apply (front_of_fronts_half M A B B); try done.
      * intros r Hr. apply elem_of_app. by right.
      * intros r. rewrite dominated_app. by intros [_ ?]%orb_false_iff.
  - apply Forall_app. split; apply Forall_forall; intros r Hr;
      apply list_elem_of_filter in Hr as [_ Hr].
    + apply (rectangular_elem M A); [by apply valid_rectangular | done].
    + apply (rectangular_elem M B); [by apply valid_rectangular | done].
Qed.

Lemma front_of_fronts_witness :
  let A := int_array [[1; 1]; [1; 2]; [3; 0]]%Z in
  let B := int_array [[2; 2]; [0; 1]]%Z in
  valid 2 A /\ valid 2 B /\
  exists fa fb fab,
    pareto_front_scores (Array2 A) = Ok (Array2 fa) /\
    pareto_front_scores (Array2 B) = Ok (Array2 fb) /\
    pareto_front_scores (Array2 (A ++ B)) = Ok (Array2 fab) /\
    pareto_front_scores (Array2 (fa ++ fb)) = Ok (Array2 fab).
Proof.
  intros A B.
  assert (HA : valid 2 A) by valid_array.
  assert (HB : valid 2 B) by valid_array.
  split; [exact HA|]. split; [exact HB|].
  exact (front_of_fronts 2 A B HA HB).
Defined.
